(** * siegfried, package [core]: the identifier-loader registry, the
    matcher-type enumeration and the Recorder claim protocol.

    A shallow embedding of [pkg/core/core.go].  Go run-time panics are made
    explicit in an [outcome] type, the process-wide [loaders] array is passed
    as explicit state, and the [*persist.LoadSaver] cursor that the loaders
    mutate is threaded through every call. *)

From Stdlib Require Import Strings.Byte ZArith.
From stdpp Require Import base option list fin vector strings sorting.

Open Scope string_scope.
Open Scope nat_scope.
Open Scope list_scope.

(** ** Go run-time outcomes *)

(** What a Go run-time panic carries.  [index_out_of_range i n] is the
    run-time error of indexing an array of length [n] at [i]; [raised] is a
    panic raised by user code (a loader). *)
Inductive panic_value : Type :=
  | index_out_of_range (index len : nat)
  | raised (msg : string).

(** A call either returns normally or unwinds with a panic. *)
Inductive outcome (A : Type) : Type :=
  | Ok (a : A)
  | Panic (p : panic_value).
Arguments Ok {A} a.
Arguments Panic {A} p.

#[global] Instance outcome_ret : MRet outcome := λ A a, Ok a.
#[global] Instance outcome_bind : MBind outcome := λ A B f m,
  match m with
  | Ok a => f a
  | Panic p => Panic p
  end.

(** The call returns normally. *)
Definition returns {A : Type} (m : outcome A) : Prop := ∃ a, m = Ok a.

(** ** The persistence cursor, package [persist] *)

Module persist.

(** Go's [error] values, identified by their message. *)
Definition error : Type := string.

(** Modelled from the spec: the struct [persist.LoadSaver] is declared
    outside [core.go]; the spec describes it as a sequential read cursor
    over a persisted blob with a sticky first-error field.  [Err] is the
    exported field that [LoadIdentifier] reads and assigns. *)
Record LoadSaver : Type := mkLoadSaver {
  buf : list byte;
  i : nat;
  Err : option error
}.

(** Modelled from the spec: the constructor [persist.NewLoadSaver] is
    defined outside [core.go].  It gives an error-free cursor at the start of
    the blob; an empty blob is replaced by a buffer of 16 zero bytes. *)
Definition NewLoadSaver (b : list byte) : LoadSaver :=
  {| buf := match b with
            | [] => replicate 16 x00
            | _ => b
            end;
     i := 0;
     Err := None |}.

(** The assignment [ls.Err = e]. *)
Definition set_Err (e : option error) (ls : LoadSaver) : LoadSaver :=
  {| buf := buf ls; i := i ls; Err := e |}.

(** The cursor moved past one byte. *)
Definition advance (ls : LoadSaver) : LoadSaver :=
  {| buf := buf ls; i := S (i ls); Err := Err ls |}.

Definition overflowed : error := "error loading signature file, overflowed".

(** Modelled from the spec: the method [LoadSaver.LoadByte] is defined
    outside [core.go].  Following the spec, a read on a cursor that already
    carries an error is a no-op that preserves the first error (it has no
    byte to deliver and yields the zero byte); a read past the end of the
    blob sets the error; otherwise the next byte is returned and the cursor
    moves on by one. *)
Definition LoadByte (ls : LoadSaver) : byte * LoadSaver :=
  match Err ls with
  | Some _ => (x00, ls)
  | None =>
      match buf ls !! i ls with
      | Some b => (b, advance ls)
      | None => (x00, set_Err (Some overflowed) ls)
      end
  end.

(** The cursor is error-free and its next byte is [t]. *)
Definition next_byte (ls : LoadSaver) (t : byte) : Prop :=
  Err ls = None ∧ buf ls !! i ls = Some t.

End persist.

(** ** Package [core] *)

Module core.
Import persist.

(** [type MatcherType int] with its [iota] constant block. *)
Inductive MatcherType : Type :=
  | ExtensionMatcher
  | MIMEMatcher
  | ContainerMatcher
  | ByteMatcher
  | TextMatcher
  | XMLMatcher.

(** The [int] behind each constant: [iota] counts from 0 in declaration
    order. *)
Definition MatcherType_int (m : MatcherType) : Z :=
  match m with
  | ExtensionMatcher => 0
  | MIMEMatcher => 1
  | ContainerMatcher => 2
  | ByteMatcher => 3
  | TextMatcher => 4
  | XMLMatcher => 5
  end%Z.

(** The constants in the order the [const] block declares them. *)
Definition matcher_types : list MatcherType :=
  [ExtensionMatcher; MIMEMatcher; ContainerMatcher; ByteMatcher;
   TextMatcher; XMLMatcher].

(** Go's [<] on [MatcherType] is [<] on the underlying [int]. *)
Definition MatcherType_lt (a b : MatcherType) : Prop :=
  (MatcherType_int a < MatcherType_int b)%Z.

(** [type Result interface { Index() int; Basis() string }]. *)
Record Result : Type := mkResult {
  Index : Z;
  Basis : string
}.

(** [type Identification interface]; [config.Archive] is an integer
    enumeration declared in package [config]. *)
Record Identification : Type := mkIdentification {
  ident_String : string;
  Known : bool;
  Warn : string;
  YAML : string;
  JSON : string;
  CSV : list string;
  Archive : Z
}.

(** [type Recorder interface]: a mutable object.  Its private state is
    [rec_state], [rec_now] the state it is in; a method that may change the
    object takes the state and gives back the state it leaves behind.
    [rec_Record] is the method [Record]; [Report] returns the identifications
    it sends on the channel. *)
Record Recorder : Type := mkRecorder {
  rec_state : Type;
  rec_now : rec_state;
  rec_Record : MatcherType → Result → rec_state → bool * rec_state;
  Satisfied : MatcherType → rec_state → bool;
  Report : rec_state → list Identification * rec_state;
  Active : MatcherType → rec_state → rec_state
}.

(** The method call [rec.Record(mt, r)]: the returned flag and the
    recorder after the call. *)
Definition Record_ (rec : Recorder) (mt : MatcherType) (r : Result)
  : bool * Recorder :=
  let '(claimed, st) := rec_Record rec mt r (rec_now rec) in
  (claimed,
   {| rec_state := rec_state rec; rec_now := st;
      rec_Record := rec_Record rec; Satisfied := Satisfied rec;
      Report := Report rec; Active := Active rec |}).

(** [type Identifier interface]. *)
Record Identifier : Type := mkIdentifier {
  id_Recorder : Recorder;
  Describe : string * string;
  Save : LoadSaver → LoadSaver;
  id_String : string;
  Recognise : MatcherType → Z → bool * string
}.

(** [const Pronom byte = iota]. *)
Definition Pronom : byte := x00.

(** [type IdentifierLoader func(ls *persist.LoadSaver) Identifier]: a loader
    may read and assign the cursor it is given, returns an Identifier or
    [nil] ([None]), and, being arbitrary code, may panic.  A loader is taken
    to work on its cursor only: one that calls back into [RegisterIdentifier]
    or [LoadIdentifier] is outside this model, so nothing below compares the
    behaviour of a loader under two registries. *)
Abbreviation IdentifierLoader :=
  (LoadSaver → outcome (option Identifier * LoadSaver)).

(** The type [[8]IdentifierLoader]; a [nil] func value is [None]. *)
Definition registry : Type := vec (option IdentifierLoader) 8.

(** [var loaders = [8]IdentifierLoader{nil, nil, nil, nil, nil, nil, nil, nil}] *)
Definition loaders : registry := vreplicate 8 None.

(** The bounds check of an index expression on an array of 8 elements. *)
Definition index8 (n : nat) : outcome (fin 8) :=
  match le_lt_dec 8 n with
  | left _ => Panic (index_out_of_range n 8)
  | right H => Ok (nat_to_fin H)
  end.

(** The slots as a list, for reading a slot by its number. *)
Definition slots (reg : registry) : list (option IdentifierLoader) :=
  vec_to_list reg.

(** [func RegisterIdentifier(id byte, l IdentifierLoader)]: the registry
    after the call. *)
Definition RegisterIdentifier (reg : registry) (id : byte)
    (l : option IdentifierLoader) : outcome registry :=
  k ← index8 (Byte.to_nat id);
  mret (vinsert k l reg).

Definition bad_loader : error := "bad identifier loader".

(** [func LoadIdentifier(ls *persist.LoadSaver) Identifier]: the returned
    Identifier ([None] for [nil]) and the cursor after the call. *)
Definition LoadIdentifier (reg : registry) (ls : LoadSaver)
  : outcome (option Identifier * LoadSaver) :=
  let '(id, ls) := LoadByte ls in
  k ← index8 (Byte.to_nat id);
  match reg !!! k with
  | None =>
      let ls := match Err ls with
                | None => set_Err (Some bad_loader) ls
                | Some _ => ls
                end in
      mret (None, ls)
  | Some l => l ls
  end.

(** A loader that keeps a cursor error it finds on entry: every loader
    that touches the cursor only through its sticky reads is one. *)
Definition keeps_first_error (l : IdentifierLoader) : Prop :=
  ∀ ls e r ls', Err ls = Some e → l ls = Ok (r, ls') → Err ls' = Some e.

(** ** The Engine's use of the package *)

(** Modelled from the spec: the Engine loop lives outside [core.go].  For
    each MatcherType in defined order (Extension, MIME, Container, Byte,
    Text, XML) it runs the matcher of that type. *)
Definition execution_order : list MatcherType :=
  [ExtensionMatcher; MIMEMatcher; ContainerMatcher; ByteMatcher;
   TextMatcher; XMLMatcher].

(** Modelled from the spec: step 1 of a session, outside [core.go]:
    instantiate one Recorder per loaded Identifier, in registration
    order. *)
Definition session_recorders (ids : list Identifier) : list Recorder :=
  id_Recorder <$> ids.

(** Modelled from the spec: step 3 of a session, outside [core.go].  For one
    Result, iterate the Identifiers in registration order, calling
    [Record(type, result)] on each corresponding Recorder, and stop as soon
    as one Recorder returns true.  [k] is the position of the head of
    [recs] in the registration order.  The function returns the log of the
    calls made, as (position, returned flag) in call order, and the list of
    recorders as the calls leave them. *)
Fixpoint fan_out_from (k : nat) (mt : MatcherType) (r : Result)
    (recs : list Recorder) : list (nat * bool) * list Recorder :=
  match recs with
  | [] => ([], [])
  | rec :: rest =>
      let '(claimed, rec') := Record_ rec mt r in
      if claimed then ([(k, true)], rec' :: rest)
      else
        let '(calls, rest') := fan_out_from (S k) mt r rest in
        ((k, false) :: calls, rec' :: rest')
  end.

Definition fan_out (mt : MatcherType) (r : Result) (recs : list Recorder)
  : list (nat * bool) * list Recorder :=
  fan_out_from 0 mt r recs.

(** The flag a [Record] call on [rec] returns, and the Recorder it leaves. *)
Definition claimed (mt : MatcherType) (r : Result) (rec : Recorder) : bool :=
  (Record_ rec mt r).1.
Definition after (mt : MatcherType) (r : Result) (rec : Recorder) : Recorder :=
  (Record_ rec mt r).2.

(** A logged call is faithful when it names a Recorder of the list by its
    position and carries the flag that Recorder returns. *)
Definition faithful (mt : MatcherType) (r : Result) (recs : list Recorder)
    (c : nat * bool) : Prop :=
  ∃ rec, recs !! c.1 = Some rec ∧ claimed mt r rec = c.2.

(** The number of calls in a log that returned true. *)
Definition claims (calls : list (nat * bool)) : nat :=
  length (filter (λ c, c.2 = true) calls).

(** The log of [n] calls that all returned false, made at positions
    [k], [k+1], ... *)
Definition unclaimed (k n : nat) : list (nat * bool) :=
  (λ j, (j, false)) <$> seq k n.

#[global] Instance MatcherType_eq_dec : EqDecision MatcherType.
Proof. solve_decision. Defined.

(** ** Sample plug-ins, for evaluating the code on concrete inputs *)

(** A Recorder that claims the results whose index is [n] and counts the
    calls it has seen. *)
Definition index_recorder (n : Z) : Recorder :=
  {| rec_state := nat;
     rec_now := 0;
     rec_Record := λ _ r seen, (bool_decide (Index r = n), S seen);
     Satisfied := λ _ _, false;
     Report := λ seen, ([], seen);
     Active := λ _ seen, seen |}.

Definition sample_identifier (name : string) (n : Z) : Identifier :=
  {| id_Recorder := index_recorder n;
     Describe := (name, "sample");
     Save := λ ls, ls;
     id_String := name;
     Recognise := λ _ k, (bool_decide (k = n), name) |}.

(** A loader in the style of a signature-format package: it reads what it
    needs through the cursor and always hands back an Identifier built from
    what it read. *)
Definition reading_loader : IdentifierLoader :=
  λ ls, let '(b, ls) := LoadByte ls in
        Ok (Some (sample_identifier "pronom" (Z.of_nat (Byte.to_nat b))), ls).

(** A loader that rejects its input by assigning the cursor's error field
    without looking at it first. *)
Definition rejecting_loader : IdentifierLoader :=
  λ ls, Ok (None, set_Err (Some "unsupported signature version") ls).

(** The registry after [RegisterIdentifier(Pronom, reading_loader)]. *)
Definition pronom_registry : registry :=
  vinsert 0%fin (Some reading_loader) loaders.

(** The registry after [RegisterIdentifier(Pronom, rejecting_loader)]. *)
Definition rejecting_registry : registry :=
  vinsert 0%fin (Some rejecting_loader) loaders.

(** A cursor that has been read to the end of its blob without error. *)
Definition exhausted_cursor : LoadSaver :=
  {| buf := [x03]; i := 1; Err := None |}.

(** A cursor on which an earlier read has already failed. *)
Definition failed_cursor : LoadSaver :=
  {| buf := [x00; x07]; i := 2; Err := Some overflowed |}.

(** ** The cursor's reads *)

Lemma LoadByte_next ls t : next_byte ls t → LoadByte ls = (t, advance ls).
Proof. intros [HErr Hbuf]. unfold LoadByte. by rewrite HErr, Hbuf. Qed.

Lemma LoadByte_sticky ls : Err ls ≠ None → LoadByte ls = (x00, ls).
Proof. intros HErr. unfold LoadByte. by destruct (Err ls). Qed.

Lemma LoadByte_keeps_first_error ls e :
  Err ls = Some e → Err (LoadByte ls).2 = Some e.
Proof. intros HErr. rewrite LoadByte_sticky; [done | congruence]. Qed.

(** ** Indexing the loader array *)

Lemma index8_lt n : n < 8 → ∃ k : fin 8, index8 n = Ok k ∧ fin_to_nat k = n.
Proof.
  intros Hn. unfold index8. destruct (le_lt_dec 8 n) as [Hge | Hlt]; [lia |].
  exists (nat_to_fin Hlt). split; [done | apply fin_to_nat_to_fin].
Qed.

Lemma index8_ge n : 8 ≤ n → index8 n = Panic (index_out_of_range n 8).
Proof.
  intros Hn. unfold index8. destruct (le_lt_dec 8 n) as [Hge | Hlt]; [done | lia].
Qed.

Lemma slots_length reg : length (slots reg) = 8.
Proof. apply length_vec_to_list. Qed.

Lemma slots_lookup reg (k : fin 8) : slots reg !! fin_to_nat k = Some (reg !!! k).
Proof. by apply vlookup_lookup. Qed.

Lemma slots_insert reg (k : fin 8) l :
  slots (vinsert k l reg) = <[fin_to_nat k := l]> (slots reg).
Proof. apply vec_to_list_insert. Qed.

(** A store into an existing slot returns, and changes that slot only. *)
Lemma RegisterIdentifier_in_range reg t l :
  Byte.to_nat t < 8 →
  ∃ reg', RegisterIdentifier reg t l = Ok reg'
          ∧ slots reg' = <[Byte.to_nat t := l]> (slots reg).
Proof.
  intros Ht. destruct (index8_lt _ Ht) as (k & Hk & Hkt).
  exists (vinsert k l reg). unfold RegisterIdentifier. rewrite Hk. simpl.
  split; [done |]. by rewrite slots_insert, Hkt.
Qed.

(** What [LoadIdentifier] does once the cursor has delivered tag [t] and is
    left as [ls']. *)
Lemma LoadIdentifier_unfold reg ls t ls' :
  LoadByte ls = (t, ls') →
  LoadIdentifier reg ls =
    match slots reg !! Byte.to_nat t with
    | None => Panic (index_out_of_range (Byte.to_nat t) 8)
    | Some None =>
        Ok (None, match Err ls' with
                  | None => set_Err (Some bad_loader) ls'
                  | Some _ => ls'
                  end)
    | Some (Some l) => l ls'
    end.
Proof.
  intros Hread. unfold LoadIdentifier. rewrite Hread.
  destruct (le_lt_dec 8 (Byte.to_nat t)) as [Hge | Hlt].
  - rewrite index8_ge by done. simpl.
    rewrite (lookup_ge_None_2 (slots reg)); [done |]. by rewrite slots_length.
  - destruct (index8_lt _ Hlt) as (k & Hk & Hkt). rewrite Hk. simpl.
    rewrite <- Hkt, slots_lookup. by destruct (reg !!! k).
Qed.

(** ** RegisterIdentifier *)

(** C6: the loader registry has exactly 8 slots, and for a tag [t < 8]
    registering [l1] and then [l2] at [t] overwrites silently: both calls
    return normally, slot [t] holds [l2], every other slot is as it was
    and there are still 8 slots. *)
Theorem RegisterIdentifier_overwrites reg t l1 l2 :
  Byte.to_nat t < 8 →
  length (slots loaders) = 8
  ∧ ∃ reg1 reg2,
      RegisterIdentifier reg t l1 = Ok reg1
      ∧ RegisterIdentifier reg1 t l2 = Ok reg2
      ∧ length (slots reg2) = 8
      ∧ slots reg2 !! Byte.to_nat t = Some l2
      ∧ ∀ j, j ≠ Byte.to_nat t → slots reg2 !! j = slots reg !! j.
Proof.
  intros Ht. split; [apply slots_length |].
  destruct (RegisterIdentifier_in_range reg t l1 Ht) as (reg1 & H1 & Hs1).
  destruct (RegisterIdentifier_in_range reg1 t l2 Ht) as (reg2 & H2 & Hs2).
  exists reg1, reg2. repeat split; try done.
  - apply slots_length.
  - rewrite Hs2. apply list_lookup_insert_eq. by rewrite slots_length.
  - intros j Hj. rewrite Hs2, Hs1. by rewrite !list_lookup_insert_ne.
Qed.

Lemma RegisterIdentifier_overwrites_witness :
  Byte.to_nat x03 < 8
  ∧ length (slots loaders) = 8
  ∧ ∃ reg1 reg2,
      RegisterIdentifier pronom_registry x03 (Some reading_loader) = Ok reg1
      ∧ RegisterIdentifier reg1 x03 (Some rejecting_loader) = Ok reg2
      ∧ length (slots reg2) = 8
      ∧ slots reg2 !! Byte.to_nat x03 = Some (Some rejecting_loader)
      ∧ ∀ j, j ≠ Byte.to_nat x03 → slots reg2 !! j = slots pronom_registry !! j.
Proof.
  assert (Ht : Byte.to_nat x03 < 8) by (cbn; lia).
  split; [exact Ht |].
  exact (RegisterIdentifier_overwrites pronom_registry x03
           (Some reading_loader) (Some rejecting_loader) Ht).
Defined.

(** C9: RegisterIdentifier returns exactly when the tag is below 8; for
    every [id >= 8] and any loader the store indexes past the 8-slot array
    and the call panics with an index-out-of-range run-time error. *)
Theorem RegisterIdentifier_out_of_range reg id l :
  (returns (RegisterIdentifier reg id l) ↔ Byte.to_nat id < 8)
  ∧ (8 ≤ Byte.to_nat id →
     RegisterIdentifier reg id l
     = Panic (index_out_of_range (Byte.to_nat id) 8)).
Proof.
  assert (Hge : 8 ≤ Byte.to_nat id →
                RegisterIdentifier reg id l
                = Panic (index_out_of_range (Byte.to_nat id) 8)).
  { intros Hid. unfold RegisterIdentifier. by rewrite index8_ge. }
  split; [split |]; [| | done].
  - intros [reg' Hret]. destruct (le_lt_dec 8 (Byte.to_nat id)) as [Hid | Hid];
      [| done]. rewrite (Hge Hid) in Hret. discriminate.
  - intros Hid. destruct (RegisterIdentifier_in_range reg id l Hid) as (reg' & H & _).
    by exists reg'.
Qed.

Lemma RegisterIdentifier_out_of_range_witness :
  8 ≤ Byte.to_nat x08
  ∧ RegisterIdentifier loaders x08 (Some reading_loader)
    = Panic (index_out_of_range 8 8).
Proof.
  split; [cbn; lia |].
  apply (proj2 (RegisterIdentifier_out_of_range loaders x08 (Some reading_loader))).
  cbn; lia.
Defined.

(** ** LoadIdentifier *)

Lemma next_byte_advance ls t : next_byte ls t → Err (advance ls) = None.
Proof. by intros [HErr _]. Qed.

(** On an error-free cursor whose next byte is [t], the whole behaviour of
    [LoadIdentifier] is decided by slot [t]. *)
Lemma LoadIdentifier_next_byte reg ls t :
  next_byte ls t →
  LoadIdentifier reg ls =
    match slots reg !! Byte.to_nat t with
    | None => Panic (index_out_of_range (Byte.to_nat t) 8)
    | Some None => Ok (None, set_Err (Some bad_loader) (advance ls))
    | Some (Some l) => l (advance ls)
    end.
Proof.
  intros Hnext.
  rewrite (LoadIdentifier_unfold reg ls t (advance ls)) by by apply LoadByte_next.
  by rewrite (next_byte_advance ls t).
Qed.

(** A blob that starts with the Pronom tag is handed to the Pronom loader,
    which reads on from the byte after the tag. *)
Example LoadIdentifier_pronom_blob :
  LoadIdentifier pronom_registry (NewLoadSaver [x00; x05])
  = Ok (Some (sample_identifier "pronom" 5),
        {| buf := [x00; x05]; i := 2; Err := None |}).
Proof. reflexivity. Qed.

(** A blob whose tag names an empty slot. *)
Example LoadIdentifier_empty_slot :
  LoadIdentifier pronom_registry (NewLoadSaver [x03; x05])
  = Ok (None, {| buf := [x03; x05]; i := 1; Err := Some bad_loader |}).
Proof. reflexivity. Qed.

(** A cursor at the end of its blob: the tag read fails, and the Pronom
    loader is called on the failed cursor all the same. *)
Example LoadIdentifier_exhausted_cursor :
  LoadIdentifier pronom_registry exhausted_cursor
  = Ok (Some (sample_identifier "pronom" 0),
        {| buf := [x03]; i := 1; Err := Some overflowed |}).
Proof. reflexivity. Qed.

(** C2: for a tag [t < 8] and a loader [l], after [RegisterIdentifier(t, l)]
    a [LoadIdentifier] on an error-free cursor whose next byte is [t] is the
    call of [l] on that cursor (moved past the tag byte): it returns what
    [l] returns and leaves the cursor as [l] leaves it. *)
Theorem LoadIdentifier_dispatch reg t (l : IdentifierLoader) ls :
  Byte.to_nat t < 8 →
  next_byte ls t →
  ∃ reg', RegisterIdentifier reg t (Some l) = Ok reg'
          ∧ LoadIdentifier reg' ls = l (advance ls).
Proof.
  intros Ht Hnext.
  destruct (RegisterIdentifier_in_range reg t (Some l) Ht) as (reg' & Hreg & Hs).
  exists reg'. split; [done |].
  rewrite (LoadIdentifier_next_byte reg' ls t Hnext), Hs.
  rewrite list_lookup_insert_eq; [done |]. by rewrite slots_length.
Qed.

Lemma LoadIdentifier_dispatch_witness :
  Byte.to_nat Pronom < 8
  ∧ next_byte (NewLoadSaver [x00; x05]) Pronom
  ∧ ∃ reg', RegisterIdentifier rejecting_registry Pronom (Some reading_loader) = Ok reg'
            ∧ LoadIdentifier reg' (NewLoadSaver [x00; x05])
              = reading_loader (advance (NewLoadSaver [x00; x05])).
Proof.
  assert (Ht : Byte.to_nat Pronom < 8) by (cbn; lia).
  assert (Hnext : next_byte (NewLoadSaver [x00; x05]) Pronom)
    by (split; reflexivity).
  split; [exact Ht |]. split; [exact Hnext |].
  exact (LoadIdentifier_dispatch rejecting_registry Pronom reading_loader
           (NewLoadSaver [x00; x05]) Ht Hnext).
Defined.

(** C1: [LoadIdentifier] does panic on malformed input: on an error-free
    cursor whose next byte is a tag with no registry slot ([t >= 8]) the
    index expression [loaders[int(id)]] raises an index-out-of-range
    run-time panic, whatever the registry holds; no error is set on the
    cursor and nothing is returned. *)
Theorem LoadIdentifier_tag_without_slot reg ls t :
  next_byte ls t →
  8 ≤ Byte.to_nat t →
  LoadIdentifier reg ls = Panic (index_out_of_range (Byte.to_nat t) 8).
Proof.
  intros Hnext Ht. rewrite (LoadIdentifier_next_byte reg ls t Hnext).
  rewrite (lookup_ge_None_2 (slots reg)); [done |]. by rewrite slots_length.
Qed.

Lemma LoadIdentifier_tag_without_slot_witness :
  next_byte (NewLoadSaver [x08]) x08
  ∧ 8 ≤ Byte.to_nat x08
  ∧ LoadIdentifier loaders (NewLoadSaver [x08])
    = Panic (index_out_of_range 8 8).
Proof.
  assert (Hnext : next_byte (NewLoadSaver [x08]) x08) by (split; reflexivity).
  assert (Ht : 8 ≤ Byte.to_nat x08) by (cbn; lia).
  split; [exact Hnext |]. split; [exact Ht |].
  exact (LoadIdentifier_tag_without_slot loaders (NewLoadSaver [x08]) x08 Hnext Ht).
Defined.

(** C3: on an error-free cursor whose next byte is a tag [t] at which no
    loader is registered, [LoadIdentifier] returns nil with the cursor's
    error set to "bad identifier loader" when [t < 8], and panics with an
    index-out-of-range run-time error when [t >= 8]. *)
Theorem LoadIdentifier_no_loader reg ls t :
  next_byte ls t →
  (∀ l, slots reg !! Byte.to_nat t ≠ Some (Some l)) →
  LoadIdentifier reg ls =
    if decide (Byte.to_nat t < 8)
    then Ok (None, set_Err (Some bad_loader) (advance ls))
    else Panic (index_out_of_range (Byte.to_nat t) 8).
Proof.
  intros Hnext Hnone. rewrite (LoadIdentifier_next_byte reg ls t Hnext).
  destruct (decide (Byte.to_nat t < 8)) as [Ht | Ht].
  - destruct (slots reg !! Byte.to_nat t) as [[l |] |] eqn:Hslot.
    + by destruct (Hnone l).
    + done.
    + apply lookup_ge_None_1 in Hslot. rewrite slots_length in Hslot. lia.
  - rewrite (lookup_ge_None_2 (slots reg)); [done |]. rewrite slots_length. lia.
Qed.

Lemma LoadIdentifier_no_loader_witness :
  next_byte (NewLoadSaver [xff; x00]) xff
  ∧ (∀ l, slots pronom_registry !! Byte.to_nat xff ≠ Some (Some l))
  ∧ LoadIdentifier pronom_registry (NewLoadSaver [xff; x00])
    = Panic (index_out_of_range 255 8).
Proof.
  assert (Hnext : next_byte (NewLoadSaver [xff; x00]) xff) by (split; reflexivity).
  assert (Hnone : ∀ l, slots pronom_registry !! Byte.to_nat xff ≠ Some (Some l))
    by (intros l; vm_compute; discriminate).
  split; [exact Hnext |]. split; [exact Hnone |].
  exact (LoadIdentifier_no_loader pronom_registry (NewLoadSaver [xff; x00]) xff
           Hnext Hnone).
Defined.

(** C10: registering a nil loader at a tag [t < 8] cannot be told apart, by
    loading, from a registry in which slot [t] was never filled: on an
    error-free cursor whose next byte is [t], [LoadIdentifier] returns nil
    and sets the cursor's error to "bad identifier loader" (the blob is
    untouched and the position is one past the tag), exactly as it does on
    every registry whose slot [t] is still nil, the initial one included. *)
Theorem LoadIdentifier_nil_loader reg t ls :
  Byte.to_nat t < 8 →
  next_byte ls t →
  ∃ reg' ls',
    RegisterIdentifier reg t None = Ok reg'
    ∧ LoadIdentifier reg' ls = Ok (None, ls')
    ∧ Err ls' = Some "bad identifier loader"
    ∧ buf ls' = buf ls
    ∧ i ls' = S (i ls)
    ∧ ls' = set_Err (Some bad_loader) (advance ls)
    ∧ LoadIdentifier loaders ls = LoadIdentifier reg' ls
    ∧ ∀ never, slots never !! Byte.to_nat t = Some None →
               LoadIdentifier never ls = LoadIdentifier reg' ls.
Proof.
  intros Ht Hnext.
  destruct (RegisterIdentifier_in_range reg t None Ht) as (reg' & Hreg & Hs).
  assert (Hnil : ∀ never, slots never !! Byte.to_nat t = Some None →
                          LoadIdentifier never ls
                          = Ok (None, set_Err (Some bad_loader) (advance ls))).
  { intros never Hslot. by rewrite (LoadIdentifier_next_byte never ls t Hnext), Hslot. }
  assert (Hreg' : slots reg' !! Byte.to_nat t = Some None).
  { rewrite Hs. apply list_lookup_insert_eq. by rewrite slots_length. }
  assert (Hinit : slots loaders !! Byte.to_nat t = Some None).
  { unfold slots, loaders. rewrite vec_to_list_replicate.
    by apply lookup_replicate_2. }
  exists reg', (set_Err (Some bad_loader) (advance ls)).
  split; [done |]. split; [by apply Hnil |].
  do 4 (split; [done |]).
  split; [by rewrite (Hnil _ Hinit), (Hnil _ Hreg') |].
  intros never Hslot. by rewrite (Hnil _ Hslot), (Hnil _ Hreg').
Qed.

Lemma LoadIdentifier_nil_loader_witness :
  Byte.to_nat Pronom < 8
  ∧ next_byte (NewLoadSaver [x00; x01]) Pronom
  ∧ LoadIdentifier (vinsert 0%fin None pronom_registry) (NewLoadSaver [x00; x01])
    = Ok (None,
          {| buf := [x00; x01]; i := 1; Err := Some "bad identifier loader" |})
  ∧ ∃ reg' ls',
      RegisterIdentifier pronom_registry Pronom None = Ok reg'
      ∧ LoadIdentifier reg' (NewLoadSaver [x00; x01]) = Ok (None, ls')
      ∧ Err ls' = Some "bad identifier loader"
      ∧ buf ls' = [x00; x01]
      ∧ i ls' = 1
      ∧ ls' = set_Err (Some bad_loader) (advance (NewLoadSaver [x00; x01]))
      ∧ LoadIdentifier loaders (NewLoadSaver [x00; x01])
        = LoadIdentifier reg' (NewLoadSaver [x00; x01])
      ∧ ∀ never, slots never !! Byte.to_nat Pronom = Some None →
                 LoadIdentifier never (NewLoadSaver [x00; x01])
                 = LoadIdentifier reg' (NewLoadSaver [x00; x01]).
Proof.
  assert (Ht : Byte.to_nat Pronom < 8) by (cbn; lia).
  assert (Hnext : next_byte (NewLoadSaver [x00; x01]) Pronom)
    by (split; reflexivity).
  split; [exact Ht |]. split; [exact Hnext |]. split; [reflexivity |].
  exact (LoadIdentifier_nil_loader pronom_registry Pronom
           (NewLoadSaver [x00; x01]) Ht Hnext).
Defined.

(** *** A cursor that already carries an error *)

(** On a cursor that already carries an error the tag read is a no-op that
    yields tag 0, so slot 0 decides what happens. *)
Lemma LoadIdentifier_sticky reg ls e :
  Err ls = Some e →
  LoadIdentifier reg ls =
    match reg !!! 0%fin with
    | None => Ok (None, ls)
    | Some l => l ls
    end.
Proof.
  intros HErr.
  rewrite (LoadIdentifier_unfold reg ls x00 ls)
    by (apply LoadByte_sticky; congruence).
  change (Byte.to_nat x00) with (fin_to_nat (0%fin : fin 8)).
  rewrite slots_lookup, HErr. by destruct (reg !!! 0%fin).
Qed.

(** C4, as stated, fails: with a loader registered at tag 0, a load from a
    cursor that already carries an error hands the cursor to that loader
    and returns the Identifier the loader builds. *)
Lemma LoadIdentifier_failed_cursor_returns_identifier :
  Err failed_cursor = Some overflowed
  ∧ LoadIdentifier pronom_registry failed_cursor
    = Ok (Some (sample_identifier "pronom" 0), failed_cursor)
  ∧ ¬ ∃ ls', LoadIdentifier pronom_registry failed_cursor = Ok (None, ls').
Proof.
  split; [reflexivity |]. split; [reflexivity |].
  intros [ls' Hload]. vm_compute in Hload. discriminate Hload.
Qed.

(** C4, amended: for every cursor that already carries an error when
    [LoadIdentifier] is invoked, the tag read is a no-op yielding tag 0 that
    leaves the cursor and its error as they were.  If no loader is
    registered at tag 0 the load returns nil with the cursor unchanged, its
    error still set.  If a loader is registered at tag 0 the load is the
    call of that loader on the still-errored cursor and returns whatever it
    returns, and the error is still on the cursor after the call whenever
    that loader keeps the error of the cursor it is handed. *)
Theorem LoadIdentifier_on_failed_cursor reg ls e :
  Err ls = Some e →
  LoadByte ls = (x00, ls)
  ∧ LoadIdentifier reg ls =
      match slots reg !! 0 with
      | Some (Some l) => l ls
      | _ => Ok (None, ls)
      end
  ∧ (slots reg !! 0 = Some None →
     ∃ ls', LoadIdentifier reg ls = Ok (None, ls') ∧ ls' = ls ∧ Err ls' = Some e)
  ∧ (∀ l, slots reg !! 0 = Some (Some l) →
          LoadIdentifier reg ls = l ls
          ∧ (keeps_first_error l →
             ∀ r ls', LoadIdentifier reg ls = Ok (r, ls') → Err ls' = Some e)).
Proof.
  intros HErr.
  assert (Hslot : slots reg !! 0 = Some (reg !!! 0%fin))
    by apply (slots_lookup reg 0%fin).
  assert (Hload : LoadIdentifier reg ls =
                    match slots reg !! 0 with
                    | Some (Some l) => l ls
                    | _ => Ok (None, ls)
                    end).
  { rewrite (LoadIdentifier_sticky reg ls e HErr), Hslot.
    by destruct (reg !!! 0%fin). }
  split; [apply LoadByte_sticky; congruence |]. split; [exact Hload |].
  rewrite Hload. split.
  - intros Hnil. rewrite Hnil. by exists ls.
  - intros l Hl. rewrite Hl. split; [done |].
    intros Hkeeps r ls' Hcall. by apply (Hkeeps ls e r ls').
Qed.

Lemma LoadIdentifier_on_failed_cursor_witness :
  Err failed_cursor = Some overflowed
  ∧ slots pronom_registry !! 0 = Some (Some reading_loader)
  ∧ keeps_first_error reading_loader
  ∧ LoadIdentifier pronom_registry failed_cursor
    = Ok (Some (sample_identifier "pronom" 0), failed_cursor)
  ∧ LoadIdentifier pronom_registry failed_cursor = reading_loader failed_cursor
  ∧ ∀ r ls', LoadIdentifier pronom_registry failed_cursor = Ok (r, ls') →
             Err ls' = Some overflowed.
Proof.
  assert (HErr : Err failed_cursor = Some overflowed) by reflexivity.
  assert (Hslot : slots pronom_registry !! 0 = Some (Some reading_loader))
    by reflexivity.
  assert (Hkeeps : keeps_first_error reading_loader).
  { intros ls e r ls' He Hcall. unfold reading_loader in Hcall.
    rewrite LoadByte_sticky in Hcall by congruence.
    by injection Hcall as _ <-. }
  destruct (LoadIdentifier_on_failed_cursor pronom_registry failed_cursor
              overflowed HErr) as (_ & _ & _ & Hloader).
  destruct (Hloader reading_loader Hslot) as [Hcall Hkept].
  split; [exact HErr |]. split; [exact Hslot |]. split; [exact Hkeeps |].
  split; [reflexivity |]. split; [exact Hcall |]. exact (Hkept Hkeeps).
Defined.

Lemma reading_loader_keeps_first_error : keeps_first_error reading_loader.
Proof.
  intros ls e r ls' HErr Hcall. unfold reading_loader in Hcall.
  rewrite LoadByte_sticky in Hcall by congruence.
  by injection Hcall as _ <-.
Qed.

(** C5, as stated, fails: a loader registered at tag 0 that assigns the
    cursor's error field replaces the error the cursor carried on entry. *)
Lemma LoadIdentifier_loader_overwrites_error :
  Err failed_cursor = Some overflowed
  ∧ LoadIdentifier rejecting_registry failed_cursor
    = Ok (None, set_Err (Some "unsupported signature version") failed_cursor)
  ∧ ¬ ∀ r ls', LoadIdentifier rejecting_registry failed_cursor = Ok (r, ls') →
               Err ls' = Err failed_cursor.
Proof.
  split; [reflexivity |]. split; [reflexivity |].
  intros Hkeep.
  specialize (Hkeep None (set_Err (Some "unsupported signature version") failed_cursor)
                eq_refl).
  vm_compute in Hkeep. discriminate Hkeep.
Qed.

(** C5, amended: [LoadIdentifier] itself never overwrites an existing cursor
    error.  For every cursor whose error field is non-nil on entry: if no
    loader is found at the tag read, the load returns nil and the cursor is
    exactly as it was; and whenever the load returns, the same first error is
    still in the error field, provided the loader found at the tag read (if
    any) keeps the error of the cursor it is handed. *)
Theorem LoadIdentifier_keeps_first_error reg ls e :
  Err ls = Some e →
  (∀ l, slots reg !! Byte.to_nat (LoadByte ls).1 = Some (Some l) →
        keeps_first_error l) →
  (slots reg !! Byte.to_nat (LoadByte ls).1 = Some None →
   LoadIdentifier reg ls = Ok (None, ls))
  ∧ ∀ r ls', LoadIdentifier reg ls = Ok (r, ls') → Err ls' = Some e.
Proof.
  intros HErr. rewrite LoadByte_sticky by congruence. simpl.
  assert (Hslot : slots reg !! 0 = Some (reg !!! 0%fin))
    by apply (slots_lookup reg 0%fin).
  rewrite Hslot, (LoadIdentifier_sticky reg ls e HErr).
  intros Hkeeps. destruct (reg !!! 0%fin) as [l |].
  - split; [discriminate |]. intros r ls' Hcall.
    by apply (Hkeeps l eq_refl ls e r ls').
  - split; [done |]. intros r ls' Hret. by injection Hret as _ <-.
Qed.

Lemma LoadIdentifier_keeps_first_error_witness :
  Err failed_cursor = Some overflowed
  ∧ (∀ l, slots pronom_registry !! Byte.to_nat (LoadByte failed_cursor).1
          = Some (Some l) → keeps_first_error l)
  ∧ ∀ r ls', LoadIdentifier pronom_registry failed_cursor = Ok (r, ls') →
             Err ls' = Some overflowed.
Proof.
  assert (Hkeeps : ∀ l, slots pronom_registry !! Byte.to_nat (LoadByte failed_cursor).1
                        = Some (Some l) → keeps_first_error l).
  { intros l Hl. cbn in Hl. injection Hl as <-.
    apply reading_loader_keeps_first_error. }
  split; [reflexivity |]. split; [exact Hkeeps |].
  exact (proj2 (LoadIdentifier_keeps_first_error pronom_registry failed_cursor
                  overflowed eq_refl Hkeeps)).
Defined.

(** ** MatcherType *)

(** C7: the MatcherType constants are exactly the six values Extension, MIME,
    Container, Byte, Text, XML, numbered 0 to 5 in that sequence; the order
    on them is total and strictly increasing along the sequence, and the
    sequence is the order in which the matchers are run. *)
Theorem MatcherType_enumeration :
  (∀ m, m ∈ matcher_types)
  ∧ NoDup matcher_types
  ∧ length matcher_types = 6
  ∧ MatcherType_int <$> matcher_types = [0; 1; 2; 3; 4; 5]%Z
  ∧ MatcherType_lt ExtensionMatcher MIMEMatcher
  ∧ MatcherType_lt MIMEMatcher ContainerMatcher
  ∧ MatcherType_lt ContainerMatcher ByteMatcher
  ∧ MatcherType_lt ByteMatcher TextMatcher
  ∧ MatcherType_lt TextMatcher XMLMatcher
  ∧ (∀ a b, MatcherType_lt a b ∨ a = b ∨ MatcherType_lt b a)
  ∧ execution_order = matcher_types
  ∧ StronglySorted MatcherType_lt execution_order.
Proof.
  split; [intros []; unfold matcher_types; repeat constructor |].
  split; [by apply (bool_decide_unpack _) |].
  split; [done |]. split; [done |].
  do 5 (split; [unfold MatcherType_lt; simpl; lia |]).
  split; [intros [] []; unfold MatcherType_lt; simpl;
          first [by right; left | left; lia | right; right; lia] |].
  split; [done |].
  unfold execution_order, MatcherType_lt.
  repeat (constructor; simpl; try lia).
Qed.

(** ** First claim wins *)

Section fan_out.
Context (mt : MatcherType) (r : Result).

Lemma claims_unclaimed k n : claims (unclaimed k n) = 0.
Proof.
  unfold claims, unclaimed. revert k.
  induction n as [| n IH]; intros k; [done |]. simpl.
  rewrite filter_cons_False by done. apply IH.
Qed.

Lemma unclaimed_positions k n : (unclaimed k n).*1 = seq k n.
Proof. unfold unclaimed. rewrite <- list_fmap_compose. apply list_fmap_id. Qed.

Lemma unclaimed_flags k n : (unclaimed k n).*2 = replicate n false.
Proof.
  unfold unclaimed. revert k.
  induction n as [| n IH]; intros k; [done |]. simpl. by rewrite IH.
Qed.

Lemma unclaimed_length k n : length (unclaimed k n) = n.
Proof. unfold unclaimed. by rewrite length_fmap, length_seq. Qed.

(** No Recorder claims the Result: all of them are called, in order. *)
Lemma fan_out_from_no_claim k recs :
  Forall (λ rec, claimed mt r rec = false) recs →
  fan_out_from k mt r recs = (unclaimed k (length recs), after mt r <$> recs).
Proof.
  intros Hnone. revert k.
  induction Hnone as [| rec rest Hrec _ IH]; intros k; [done |].
  simpl. unfold claimed, after in *.
  destruct (Record_ rec mt r) as [flag rec']. simpl in Hrec. subst flag.
  by rewrite IH.
Qed.

(** The first Recorder that claims the Result ends the iteration: the
    Recorders before it were called and returned false, those after it are
    not called. *)
Lemma fan_out_from_first_claim k pre rec post :
  Forall (λ rec, claimed mt r rec = false) pre →
  claimed mt r rec = true →
  fan_out_from k mt r (pre ++ rec :: post)
  = (unclaimed k (length pre) ++ [(k + length pre, true)],
     (after mt r <$> pre) ++ after mt r rec :: post).
Proof.
  intros Hpre Hrec. revert k.
  induction Hpre as [| rec0 rest Hrec0 _ IH]; intros k; simpl.
  - unfold claimed, after in *.
    destruct (Record_ rec mt r) as [flag rec']. simpl in Hrec. subst flag.
    by rewrite Nat.add_0_r.
  - unfold claimed, after in *.
    destruct (Record_ rec0 mt r) as [flag rec0']. simpl in Hrec0. subst flag.
    rewrite IH. simpl. by rewrite Nat.add_succ_r.
Qed.

(** Every list of Recorders either holds no claimant or splits at its first
    claimant. *)
Lemma first_claimant recs :
  Forall (λ rec, claimed mt r rec = false) recs
  ∨ ∃ pre rec post,
      recs = pre ++ rec :: post
      ∧ Forall (λ rec, claimed mt r rec = false) pre
      ∧ claimed mt r rec = true.
Proof.
  induction recs as [| rec rest IH]; [by left |].
  destruct (claimed mt r rec) eqn:Hrec.
  - right. by exists [], rec, rest.
  - destruct IH as [Hnone | (pre & rec' & post & -> & Hpre & Hrec')].
    + left. by constructor.
    + right. exists (rec :: pre), rec', post. repeat split; [| done].
      by constructor.
Qed.

Lemma unclaimed_Forall (P : nat * bool → Prop) k n :
  (∀ j, k ≤ j < k + n → P (j, false)) → Forall P (unclaimed k n).
Proof.
  intros HP. unfold unclaimed. apply Forall_fmap, Forall_seq. exact HP.
Qed.

Lemma unclaimed_faithful pre post :
  Forall (λ rec, claimed mt r rec = false) pre →
  Forall (faithful mt r (pre ++ post)) (unclaimed 0 (length pre)).
Proof.
  intros Hpre. apply unclaimed_Forall. intros j [_ Hj]. simpl in Hj.
  destruct (lookup_lt_is_Some_2 pre j Hj) as [rec Hrec].
  exists rec. simpl. split.
  - by rewrite lookup_app_l.
  - by apply (Forall_lookup_1 _ _ _ _ Hpre Hrec).
Qed.

(** C8: for one Result fanned out over the Recorders of a session, the
    Recorders are called in Identifier registration order starting from the
    first; every logged flag is the one that Recorder returns; the calls are
    either all of them, each returning false, or end with the first call that
    returns true; so at most one call returns true, and the Recorders past
    the last call are left as they were. *)
Theorem fan_out_first_claim_wins (ids : list Identifier) :
  let recs := session_recorders ids in
  let calls := (fan_out mt r recs).1 in
  let recs' := (fan_out mt r recs).2 in
  calls.*1 = seq 0 (length calls)
  ∧ length calls ≤ length ids
  ∧ Forall (faithful mt r recs) calls
  ∧ (calls.*2 = replicate (length ids) false
     ∨ ∃ n, n < length ids ∧ calls.*2 = replicate n false ++ [true])
  ∧ claims calls ≤ 1
  ∧ length recs' = length ids
  ∧ drop (length calls) recs' = drop (length calls) recs.
Proof.
  intros recs calls recs'. subst calls recs'. unfold fan_out.
  assert (Hlen : length recs = length ids)
    by (unfold recs, session_recorders; apply length_fmap).
  rewrite <- Hlen. clearbody recs. clear Hlen ids.
  destruct (first_claimant recs) as [Hnone | (pre & rec & post & -> & Hpre & Hrec)].
  - rewrite (fan_out_from_no_claim 0 recs Hnone). simpl.
    rewrite unclaimed_positions, unclaimed_flags, unclaimed_length, claims_unclaimed.
    repeat split.
    + lia.
    + rewrite <- (app_nil_r recs) at 1. by apply unclaimed_faithful.
    + by left.
    + lia.
    + apply length_fmap.
    + by rewrite !drop_ge by (rewrite ?length_fmap; lia).
  - rewrite (fan_out_from_first_claim 0 pre rec post Hpre Hrec). simpl.
    rewrite !fmap_app, unclaimed_positions, unclaimed_flags. simpl.
    rewrite !length_app, unclaimed_length. simpl.
    repeat split.
    + by rewrite seq_app.
    + lia.
    + apply Forall_app. split; [by apply unclaimed_faithful |].
      constructor; [| constructor]. exists rec. simpl. split; [| done].
      by apply list_lookup_middle.
    + right. exists (length pre). split; [lia | done].
    + unfold claims. rewrite filter_app, length_app.
      fold (claims (unclaimed 0 (length pre))). rewrite claims_unclaimed.
      simpl. lia.
    + rewrite length_fmap. lia.
    + replace (length pre + 1) with (length (after mt r <$> pre) + 1)
        by by rewrite length_fmap.
      rewrite <- (drop_drop _ 1 (length (after mt r <$> pre))),
        drop_app_length.
      replace (length (after mt r <$> pre)) with (length pre)
        by by rewrite length_fmap.
      by rewrite <- (drop_drop _ 1 (length pre)), drop_app_length.
Qed.

End fan_out.

(** Three Identifiers registered in this order; only the last two know
    signature 3.  The second one claims the Result, the third is never
    called. *)
Example fan_out_three_identifiers :
  fan_out ByteMatcher {| Index := 3; Basis := "byte match at 0, 4" |}
    (session_recorders [sample_identifier "a" 7; sample_identifier "b" 3;
                        sample_identifier "c" 3])
  = ([(0, false); (1, true)],
     [after ByteMatcher {| Index := 3; Basis := "byte match at 0, 4" |}
        (index_recorder 7);
      after ByteMatcher {| Index := 3; Basis := "byte match at 0, 4" |}
        (index_recorder 3);
      index_recorder 3]).
Proof. reflexivity. Qed.

(** ** Further properties of the registry *)

Lemma registry_eq (reg1 reg2 : registry) : slots reg1 = slots reg2 → reg1 = reg2.
Proof. apply vec_to_list_inj2. Qed.

Lemma to_nat_inj t1 t2 : Byte.to_nat t1 = Byte.to_nat t2 → t1 = t2.
Proof.
  intros Heq. apply (inj Some).
  by rewrite <- (Byte.of_to_nat t1), <- (Byte.of_to_nat t2), Heq.
Qed.

(** X1: registrations at two different tags below 8 commute: both orders
    return, and they return the same registry. *)
Theorem RegisterIdentifier_commute reg t1 t2 l1 l2 :
  t1 ≠ t2 →
  Byte.to_nat t1 < 8 →
  Byte.to_nat t2 < 8 →
  ∃ final,
    (RegisterIdentifier reg t1 l1 ≫= λ reg1, RegisterIdentifier reg1 t2 l2)
    = Ok final
    ∧ (RegisterIdentifier reg t2 l2 ≫= λ reg2, RegisterIdentifier reg2 t1 l1)
      = Ok final.
Proof.
  intros Hne Ht1 Ht2.
  destruct (RegisterIdentifier_in_range reg t1 l1 Ht1) as (reg1 & H1 & Hs1).
  destruct (RegisterIdentifier_in_range reg1 t2 l2 Ht2) as (reg12 & H12 & Hs12).
  destruct (RegisterIdentifier_in_range reg t2 l2 Ht2) as (reg2 & H2 & Hs2).
  destruct (RegisterIdentifier_in_range reg2 t1 l1 Ht1) as (reg21 & H21 & Hs21).
  exists reg12. rewrite H1, H2. simpl. split; [done |].
  rewrite H21. f_equal. apply registry_eq.
  rewrite Hs21, Hs2, Hs12, Hs1. apply list_insert_insert_ne.
  intros Heq. by apply Hne, to_nat_inj.
Qed.

Lemma RegisterIdentifier_commute_witness :
  x01 ≠ x07
  ∧ Byte.to_nat x01 < 8
  ∧ Byte.to_nat x07 < 8
  ∧ ∃ final,
      (RegisterIdentifier loaders x01 (Some reading_loader)
         ≫= λ reg1, RegisterIdentifier reg1 x07 (Some rejecting_loader))
      = Ok final
      ∧ (RegisterIdentifier loaders x07 (Some rejecting_loader)
           ≫= λ reg2, RegisterIdentifier reg2 x01 (Some reading_loader))
        = Ok final.
Proof.
  assert (Hne : x01 ≠ x07) by discriminate.
  assert (Ht1 : Byte.to_nat x01 < 8) by (cbn; lia).
  assert (Ht2 : Byte.to_nat x07 < 8) by (cbn; lia).
  split; [exact Hne |]. split; [exact Ht1 |]. split; [exact Ht2 |].
  exact (RegisterIdentifier_commute loaders x01 x07
           (Some reading_loader) (Some rejecting_loader) Hne Ht1 Ht2).
Defined.

(** X2: the last registration at a tag wins, whatever the tag: registering
    [l1] and then [l2] at [t] has the outcome of registering [l2] alone (the
    same registry when [t < 8], the same panic otherwise). *)
Theorem RegisterIdentifier_last_wins reg t l1 l2 :
  (RegisterIdentifier reg t l1 ≫= λ reg1, RegisterIdentifier reg1 t l2)
  = RegisterIdentifier reg t l2.
Proof.
  destruct (le_lt_dec 8 (Byte.to_nat t)) as [Hge | Hlt].
  - unfold RegisterIdentifier. by rewrite index8_ge.
  - destruct (RegisterIdentifier_in_range reg t l1 Hlt) as (reg1 & H1 & Hs1).
    destruct (RegisterIdentifier_in_range reg1 t l2 Hlt) as (reg12 & H12 & Hs12).
    destruct (RegisterIdentifier_in_range reg t l2 Hlt) as (reg2 & H2 & Hs2).
    rewrite H1. simpl. rewrite H12, H2. f_equal. apply registry_eq.
    rewrite Hs12, Hs1, Hs2. apply list_insert_insert_eq.
Qed.

(** X3: registering at a tag the loader its slot already holds returns the
    registry unchanged. *)
Theorem RegisterIdentifier_same reg t l :
  slots reg !! Byte.to_nat t = Some l →
  RegisterIdentifier reg t l = Ok reg.
Proof.
  intros Hslot.
  assert (Ht : Byte.to_nat t < 8).
  { rewrite <- (slots_length reg). by apply (lookup_lt_Some _ _ l). }
  destruct (RegisterIdentifier_in_range reg t l Ht) as (reg' & Hreg & Hs).
  rewrite Hreg. f_equal. apply registry_eq. rewrite Hs.
  by apply list_insert_id.
Qed.

Lemma RegisterIdentifier_same_witness :
  slots pronom_registry !! Byte.to_nat Pronom = Some (Some reading_loader)
  ∧ RegisterIdentifier pronom_registry Pronom (Some reading_loader)
    = Ok pronom_registry.
Proof.
  assert (Hslot : slots pronom_registry !! Byte.to_nat Pronom
                  = Some (Some reading_loader)) by reflexivity.
  split; [exact Hslot |].
  exact (RegisterIdentifier_same pronom_registry Pronom (Some reading_loader) Hslot).
Defined.

(** ** Further properties of loading *)

(** X6: when the slot of the delivered tag is empty, the load returns nil and
    always leaves an error on the cursor: the error the tag read left if it
    left one, "bad identifier loader" otherwise.  The blob and the position
    are as the tag read left them. *)
Theorem LoadIdentifier_empty_slot_error reg ls :
  slots reg !! Byte.to_nat (LoadByte ls).1 = Some None →
  ∃ ls', LoadIdentifier reg ls = Ok (None, ls')
         ∧ Err ls' = Some (default bad_loader (Err (LoadByte ls).2))
         ∧ buf ls' = buf (LoadByte ls).2
         ∧ i ls' = i (LoadByte ls).2.
Proof.
  intros Hslot. destruct (LoadByte ls) as [t ls0] eqn:Hread. simpl in *.
  rewrite (LoadIdentifier_unfold reg ls t ls0 Hread), Hslot.
  eexists. split; [done |]. by destruct (Err ls0) eqn:HErr.
Qed.

Lemma LoadIdentifier_empty_slot_error_witness :
  slots loaders !! Byte.to_nat (LoadByte exhausted_cursor).1 = Some None
  ∧ ∃ ls', LoadIdentifier loaders exhausted_cursor = Ok (None, ls')
           ∧ Err ls' = Some overflowed
           ∧ buf ls' = [x03]
           ∧ i ls' = 1.
Proof.
  assert (Hslot : slots loaders !! Byte.to_nat (LoadByte exhausted_cursor).1
                  = Some None) by reflexivity.
  split; [exact Hslot |].
  exact (LoadIdentifier_empty_slot_error loaders exhausted_cursor Hslot).
Defined.

(** X7: a load panics only in two ways: the delivered tag is 8 or more and
    the panic is the index-out-of-range error of the array access, or the
    tag is below 8 and the panic is the one raised by the loader registered
    there. *)
Theorem LoadIdentifier_panic_origin reg ls p :
  LoadIdentifier reg ls = Panic p →
  (8 ≤ Byte.to_nat (LoadByte ls).1
   ∧ p = index_out_of_range (Byte.to_nat (LoadByte ls).1) 8)
  ∨ (Byte.to_nat (LoadByte ls).1 < 8
     ∧ ∃ l, slots reg !! Byte.to_nat (LoadByte ls).1 = Some (Some l)
            ∧ l (LoadByte ls).2 = Panic p).
Proof.
  destruct (LoadByte ls) as [t ls'] eqn:Hread. simpl.
  rewrite (LoadIdentifier_unfold reg ls t ls' Hread).
  destruct (slots reg !! Byte.to_nat t) as [[l |] |] eqn:Hslot; intros Hpanic.
  - right. split; [| by exists l].
    rewrite <- (slots_length reg). by apply (lookup_lt_Some _ _ (Some l)).
  - discriminate Hpanic.
  - left. apply lookup_ge_None_1 in Hslot. rewrite slots_length in Hslot.
    split; [done |]. by injection Hpanic as <-.
Qed.

Lemma LoadIdentifier_panic_origin_witness :
  LoadIdentifier rejecting_registry (NewLoadSaver [x09])
  = Panic (index_out_of_range 9 8)
  ∧ ((8 ≤ 9 ∧ index_out_of_range 9 8 = index_out_of_range 9 8)
     ∨ (9 < 8
        ∧ ∃ l, slots rejecting_registry !! 9 = Some (Some l)
               ∧ l (LoadByte (NewLoadSaver [x09])).2
                 = Panic (index_out_of_range 9 8))).
Proof.
  assert (Hpanic : LoadIdentifier rejecting_registry (NewLoadSaver [x09])
                   = Panic (index_out_of_range 9 8)) by reflexivity.
  split; [exact Hpanic |].
  exact (LoadIdentifier_panic_origin rejecting_registry (NewLoadSaver [x09])
           (index_out_of_range 9 8) Hpanic).
Defined.

(** X8: a load never makes up an Identifier: when it returns one, a loader
    is registered at the delivered tag and that loader, called on the cursor
    as the tag read left it, returned exactly that Identifier and cursor. *)
Theorem LoadIdentifier_identifier_origin reg ls ident ls' :
  LoadIdentifier reg ls = Ok (Some ident, ls') →
  ∃ l, slots reg !! Byte.to_nat (LoadByte ls).1 = Some (Some l)
       ∧ l (LoadByte ls).2 = Ok (Some ident, ls').
Proof.
  destruct (LoadByte ls) as [t ls0] eqn:Hread. simpl.
  rewrite (LoadIdentifier_unfold reg ls t ls0 Hread).
  destruct (slots reg !! Byte.to_nat t) as [[l |] |]; intros Hret.
  - by exists l.
  - discriminate Hret.
  - discriminate Hret.
Qed.

Lemma LoadIdentifier_identifier_origin_witness :
  LoadIdentifier pronom_registry (NewLoadSaver [x00; x05])
  = Ok (Some (sample_identifier "pronom" 5),
        {| buf := [x00; x05]; i := 2; Err := None |})
  ∧ ∃ l, slots pronom_registry
           !! Byte.to_nat (LoadByte (NewLoadSaver [x00; x05])).1
         = Some (Some l)
         ∧ l (LoadByte (NewLoadSaver [x00; x05])).2
           = Ok (Some (sample_identifier "pronom" 5),
                 {| buf := [x00; x05]; i := 2; Err := None |}).
Proof.
  assert (Hret : LoadIdentifier pronom_registry (NewLoadSaver [x00; x05])
                 = Ok (Some (sample_identifier "pronom" 5),
                       {| buf := [x00; x05]; i := 2; Err := None |}))
    by reflexivity.
  split; [exact Hret |].
  exact (LoadIdentifier_identifier_origin pronom_registry
           (NewLoadSaver [x00; x05]) _ _ Hret).
Defined.

(** X9: while nothing is registered, no load returns an Identifier: every
    load either returns nil with an error on the cursor, or panics on a
    delivered tag of 8 or more. *)
Theorem LoadIdentifier_nothing_registered ls :
  (∃ ls', LoadIdentifier loaders ls = Ok (None, ls') ∧ Err ls' ≠ None)
  ∨ (8 ≤ Byte.to_nat (LoadByte ls).1
     ∧ LoadIdentifier loaders ls
       = Panic (index_out_of_range (Byte.to_nat (LoadByte ls).1) 8)).
Proof.
  destruct (LoadByte ls) as [t ls0] eqn:Hread. simpl.
  rewrite (LoadIdentifier_unfold loaders ls t ls0 Hread).
  destruct (le_lt_dec 8 (Byte.to_nat t)) as [Hge | Hlt].
  - right. split; [done |].
    rewrite (lookup_ge_None_2 (slots loaders)); [done |]. by rewrite slots_length.
  - left. unfold slots, loaders. rewrite vec_to_list_replicate.
    rewrite lookup_replicate_2 by done.
    eexists. split; [done |].
    destruct (Err ls0) eqn:HErr; [by rewrite HErr | done].
Qed.

End core.
